(** * IFRS 16 lessee calculator: the calculation core of [app.py]

    The development embeds the two calculation functions of [app.py],
    [pv_ordinary_annuity] and [compute_lease], and proves the properties
    the specification states about them.

    Python's arithmetic operators are duck-typed: the two functions run
    unchanged on any numeric type that offers [+], [-], [*], [/], [**],
    [==] and [<].  The embedding keeps that interface as the class
    [Number], translates the functions once over it, and then reasons

    - for every [Number] about what does not depend on the arithmetic
      (which rows are built, and from which expressions), and
    - for the exact rationals [Q] about the values.

    The application calls the functions on binary64 floats.  Rounding and
    the C library's [pow] are not modelled: every statement about values
    below is a statement about the calculation in exact arithmetic.

    The file has three parts: the definitions, the lemmas and theorems
    for the properties of the specification, and further properties of
    the two functions, of [fmt] and of the [if run:] block. *)

From Stdlib Require Import ZArith QArith Qpower Qabs Qround List Bool Lia Lqa.
From Stdlib Require Ascii String DecimalString DecimalN Nnat.
From ExtLib Require Import Structures.Monad Structures.MonadExc.
From ExtLib Require Import Data.Monads.EitherMonad.
Import ListNotations.
Import MonadNotation.
Import Ascii.AsciiSyntax String.StringSyntax.
Delimit Scope string_scope with string.
Delimit Scope char_scope with char.

Local Open Scope Z_scope.
Local Open Scope monad_scope.

(** * Part I: definitions *)

(** ** Python values and errors *)

(** The exception the arithmetic of the two functions can raise. *)
Inductive PyError : Type :=
| ZeroDivisionError.

(** A Python computation either raises ([inl]) or returns ([inr]). *)
Definition py (A : Type) : Type := (PyError + A)%type.

#[export] Instance Monad_py : Monad py := Monad_either PyError.


(** The numeric operators the source applies to its float arguments.
    [py_of_int] is the implicit conversion of an [int] operand ([1 + r],
    [pmt * n], [rou_initial / dep_years]) and the literal [0.0];
    [py_truediv] is [/] and [py_pow] is [**] with an [int] exponent. *)
Class Number (F : Type) : Type := {
  py_of_int : Z -> F;
  py_add : F -> F -> F;
  py_sub : F -> F -> F;
  py_mul : F -> F -> F;
  py_truediv : F -> F -> py F;
  py_pow : F -> Z -> py F;
  py_eq : F -> F -> bool;
  py_lt : F -> F -> bool
}.

Declare Scope py_scope.
Delimit Scope py_scope with py.
Notation "x + y" := (py_add x y) : py_scope.
Notation "x - y" := (py_sub x y) : py_scope.
Notation "x * y" := (py_mul x y) : py_scope.
Notation "x == y" := (py_eq x y) (at level 70, no associativity) : py_scope.

(** [min(a, b)] of the builtins: the first argument, unless the second
    is strictly smaller. *)
Definition py_min {F : Type} `{Number F} (a b : F) : F :=
  if py_lt b a then b else a.

(** [range(lo, hi)]. *)
Definition py_range (lo hi : Z) : list Z :=
  map (fun i => lo + Z.of_nat i) (seq 0 (Z.to_nat (hi - lo))).

(** ** The data of a calculation *)

Set Implicit Arguments.

(** One [dict(Period=..., Opening=..., ...)] of the schedule. *)
Record Row (F : Type) : Type := {
  Period : Z;
  Opening : F;
  Interest : F;
  Payment : F;
  Principal : F;
  Closing : F
}.

(** The dictionary [compute_lease] returns; the data frame is the list
    of its rows, in order. *)
Record LeaseResult (F : Type) : Type := {
  lease_liability_initial : F;
  rou_initial : F;
  annual_dep : F;
  dep_years : Z;
  schedule : list (Row F)
}.

Unset Implicit Arguments.

(** ** The calculation *)

Section Core.

Context {F : Type} `{Number F}.

Local Open Scope py_scope.

(** [def pv_ordinary_annuity(pmt, r, n)] *)
Definition pv_ordinary_annuity (pmt r : F) (n : Z) : py F :=
  if r == py_of_int 0 then
    ret (pmt * py_of_int n)
  else
    p <- py_pow (py_of_int 1 + r) (- n) ;;
    py_truediv (pmt * (py_of_int 1 - p)) r.

(** The body of [for t in range(1, n + 1)], on the two variables it
    updates: [rows] and [opening]. *)
Definition loop_body (n : Z) (pmt r : F)
    (st : list (Row F) * F) (t : Z) : list (Row F) * F :=
  let '(rows, opening) := st in
  let interest := opening * r in
  let principal := pmt - interest in
  let '(principal, payment) :=
    if (t =? n)%Z then
      let principal := opening in
      (principal, interest + principal)
    else
      (principal, pmt) in
  let closing := opening - principal in
  (rows ++ [ {| Period := t; Opening := opening; Interest := interest;
                Payment := payment; Principal := principal;
                Closing := closing |} ],
   closing).

(** The [if pay_in_advance:] block before the loop, on the same two
    variables. *)
Definition advance_row (pay_in_advance : bool) (pmt : F)
    (st : list (Row F) * F) : list (Row F) * F :=
  let '(rows, opening) := st in
  if pay_in_advance then
    let principal := py_min pmt opening in
    let closing := opening - principal in
    (rows ++ [ {| Period := 0; Opening := opening; Interest := py_of_int 0;
                  Payment := pmt; Principal := principal;
                  Closing := closing |} ],
     closing)
  else
    (rows, opening).

(** [def compute_lease(lease_term, annual_payment, rate, pay_in_advance,
    idc, prepaid, incentives, useful_life)] *)
Definition compute_lease (lease_term : Z) (annual_payment rate : F)
    (pay_in_advance : bool) (idc prepaid incentives : F)
    (useful_life : Z) : py (LeaseResult F) :=
  let r := rate in
  let n := lease_term in
  let pmt := annual_payment in
  pv <- (if pay_in_advance then
           a <- pv_ordinary_annuity pmt r (n - 1) ;; ret (pmt + a)
         else
           pv_ordinary_annuity pmt r n) ;;
  let lease_liability_initial := pv in
  let rou_initial := lease_liability_initial + idc + prepaid - incentives in
  let rows := [] in
  let opening := lease_liability_initial in
  let '(rows, opening) := advance_row pay_in_advance pmt (rows, opening) in
  let '(rows, _) :=
    fold_left (loop_body n pmt r) (py_range 1 (n + 1)) (rows, opening) in
  let schedule := rows in
  let dep_years := Z.min lease_term useful_life in
  annual_dep <- py_truediv rou_initial (py_of_int dep_years) ;;
  ret {| lease_liability_initial := lease_liability_initial;
         rou_initial := rou_initial;
         annual_dep := annual_dep;
         dep_years := dep_years;
         schedule := schedule |}.

End Core.

(** ** The loop, one row at a time *)

Section LoopRows.

Context {F : Type} `{Number F}.

Local Open Scope py_scope.

Variables (n : Z) (pmt r : F).

(** The row that iteration [t] appends when it starts from [opening]
    ([loop_body_row] below). *)
Definition period_row (t : Z) (opening : F) : Row F :=
  {| Period := t;
     Opening := opening;
     Interest := opening * r;
     Payment := if (t =? n)%Z then opening * r + opening else pmt;
     Principal := if (t =? n)%Z then opening else pmt - opening * r;
     Closing :=
       opening - (if (t =? n)%Z then opening else pmt - opening * r) |}.

(** The rows the loop appends over the periods [ts]. *)
Fixpoint periods (ts : list Z) (opening : F) : list (Row F) :=
  match ts with
  | [] => []
  | t :: ts' =>
      period_row t opening :: periods ts' (Closing (period_row t opening))
  end.

(** The value of [opening] when the loop over [ts] ends. *)
Fixpoint balance_after (ts : list Z) (opening : F) : F :=
  match ts with
  | [] => opening
  | t :: ts' => balance_after ts' (Closing (period_row t opening))
  end.

(** The schedule of a calculation whose initial liability is [pv]. *)
Definition schedule_rows (pay_in_advance : bool) (pv : F) : list (Row F) :=
  fst (advance_row pay_in_advance pmt ([], pv))
  ++ periods (py_range 1 (n + 1))
       (snd (advance_row pay_in_advance pmt ([], pv))).

(** The assignments of one iteration, read off the row it appends. *)
Definition row_built (row : Row F) : Prop :=
  Interest row = Opening row * r
  /\ Closing row = Opening row - Principal row
  /\ (Period row = n ->
      Principal row = Opening row
      /\ Payment row = Interest row + Principal row)
  /\ (Period row <> n ->
      Principal row = pmt - Interest row /\ Payment row = pmt).

(** Each row opens at the balance the row before it closed at, the
    first one at [opening]. *)
Fixpoint chained (opening : F) (rows : list (Row F)) : Prop :=
  match rows with
  | [] => True
  | row :: rows' => Opening row = opening /\ chained (Closing row) rows'
  end.

End LoopRows.

(** ** Exact arithmetic: the rationals *)

(** [x < y] on [Q] as a boolean. *)
Definition Qlt_bool (x y : Q) : bool :=
  match (x ?= y)%Q with Lt => true | _ => false end.

(** [x / y]: raises on a zero divisor. *)
Definition Q_truediv (x y : Q) : py Q :=
  if Qeq_bool y 0 then raise ZeroDivisionError else ret (x / y)%Q.

(** [x ** k] for an integer [k]: raises on zero to a negative power. *)
Definition Q_pow (x : Q) (k : Z) : py Q :=
  if Qeq_bool x 0 && (k <? 0)%Z then raise ZeroDivisionError
  else ret (x ^ k)%Q.

#[export] Instance Number_Q : Number Q := {
  py_of_int := inject_Z;
  py_add := Qplus;
  py_sub := Qminus;
  py_mul := Qmult;
  py_truediv := Q_truediv;
  py_pow := Q_pow;
  py_eq := Qeq_bool;
  py_lt := Qlt_bool
}.

(** ** The specification's vocabulary *)

Local Open Scope Q_scope.

(** The input domain the specification documents for [compute]. *)
Definition documented_domain (lease_term : Z) (annual_payment rate : Q)
    (idc prepaid incentives : Q) (useful_life : Z) : Prop :=
  (1 <= lease_term)%Z /\ 0 <= annual_payment /\ 0 <= rate
  /\ 0 <= idc /\ 0 <= prepaid /\ 0 <= incentives /\ (1 <= useful_life)%Z.

(** The specification's [computePresentValue], in its words. *)
Definition computePresentValue (payment rate : Q) (periods : Z) : Q :=
  if Qeq_bool rate 0 then payment * inject_Z periods
  else payment * (1 - (1 + rate) ^ (- periods)) / rate.

(** The specification's [initialLiability], in its words. *)
Definition initialLiability (advance : bool) (payment rate : Q) (term : Z)
    : Q :=
  if advance then payment + computePresentValue payment rate (term - 1)
  else computePresentValue payment rate term.

(** The discount factor of [k] periods, [(1 + r) ** -k]. *)
Definition discount (r : Q) (k : Z) : Q := (1 + r) ^ (- k).

(** The liability while [k] payments are still to be made. *)
Definition balance (pmt r : Q) (k : Z) : Q := pmt * (1 - discount r k) / r.

(** [x] shows as the figure [v] once rounded to the cent. *)
Definition to_the_cent (x v : Q) : Prop := Qabs (x - v) <= 5 # 1000.

(** The default scenario: four years, 25,000 a year in arrears, 5 %,
    four years of useful life, no costs, prepayments or incentives. *)
Definition default_scenario : py (LeaseResult Q) :=
  compute_lease 4 25000 (5 # 100) false 0 0 0 4.

Ltac cents := apply Qle_bool_imp_le; vm_compute; reflexivity.

Ltac in_domain := unfold documented_domain; repeat split; discriminate.

(** ** Vocabulary for the further properties *)







(** ** The sidebar and the [if run:] block *)

(** What the [if run:] block can raise: what the calculation raises,
    [KeyError] from [s["Period"]] on a data frame built from no rows
    (it has no columns) and [IndexError] from [.iloc[0]] on an empty
    selection. *)
Inductive AppError : Type :=
| Raised (e : PyError)
| KeyError
| IndexError.

Definition ui (A : Type) : Type := (AppError + A)%type.

#[export] Instance Monad_ui : Monad ui := Monad_either AppError.

(** A calculation run inside the block. *)
Definition from_py {A : Type} (c : py A) : ui A :=
  match c with
  | inl e => inl (Raised e)
  | inr a => inr a
  end.

(** The values of the eight sidebar widgets. *)
Record Sidebar : Type := {
  lease_term : Z;
  annual_payment : Q;
  rate_pct : Q;
  pay_in_advance : String.string;
  useful_life : Z;
  initial_direct_costs : Q;
  prepaid_lease : Q;
  lease_incentives : Q
}.

Local Open Scope string_scope.

(** The two options of [st.selectbox("Payment timing", ...)]. *)
Definition timing_options : list String.string :=
  ["Arrears (end of period)"; "Advance (start of period)"].

(** The minimum and maximum each [st.number_input] is given, and the
    options of the select box. *)
Definition sidebar_in_bounds (sb : Sidebar) : Prop :=
  (1 <= lease_term sb <= 50)%Z
  /\ 0 <= annual_payment sb <= 1000000
  /\ 0 <= rate_pct sb <= 100
  /\ In (pay_in_advance sb) timing_options
  /\ (1 <= useful_life sb <= 50)%Z
  /\ 0 <= initial_direct_costs sb <= 1000000
  /\ 0 <= prepaid_lease sb <= 1000000
  /\ 0 <= lease_incentives sb <= 1000000.

(** [s[s["Period"] == (1 if not advance else 1)].iloc[0]] *)
Definition year1_row {F : Type} (advance : bool) (s : list (Row F))
    : ui (Row F) :=
  match s with
  | [] => inl KeyError
  | _ :: _ =>
      match filter (fun row =>
                      (Period row =? (if negb advance then 1 else 1))%Z) s
      with
      | [] => inl IndexError
      | y1 :: _ => inr y1
      end
  end.

(** What the block computes before it formats anything: the result,
    the row [y1] of the journal entries and [rou_nbv]. *)
Record Report : Type := {
  result : LeaseResult Q;
  y1 : Row Q;
  rou_nbv : Q
}.

(** The [if run:] block, up to formatting and display. *)
Definition run_model (sb : Sidebar) : ui Report :=
  rate <- from_py (py_truediv (rate_pct sb) (py_of_int 100)) ;;
  let advance := String.prefix "Advance" (pay_in_advance sb) in
  result <- from_py
              (compute_lease (lease_term sb) (annual_payment sb) rate advance
                 (initial_direct_costs sb) (prepaid_lease sb)
                 (lease_incentives sb) (useful_life sb)) ;;
  let s := schedule result in
  y1 <- year1_row advance s ;;
  let rou_nbv := py_sub (rou_initial result) (annual_dep result) in
  ret {| result := result; y1 := y1; rou_nbv := rou_nbv |}.

Local Close Scope string_scope.

(** ** [fmt] *)

(** A finite float is a rational, and the digits [format] prints for it
    under [,.2f] are those of its exact value rounded to two decimals,
    halves to the even neighbour, with a comma before every group of
    three integer digits and a minus sign for a negative value, however
    small.  Strings are sequences of bytes, the pound sign its two UTF-8
    bytes.  Negative zero, the infinities and NaN are no rationals. *)

(** The integer nearest to a non-negative [x], halves to the even one. *)
Definition round_half_even (x : Q) : Z :=
  let f := Qfloor x in
  match (x - inject_Z f ?= 1 # 2)%Q with
  | Lt => f
  | Gt => (f + 1)%Z
  | Eq => if Z.even f then f else (f + 1)%Z
  end.

(** The cents of the amount printed for [x]. *)
Definition cents (x : Q) : N := Z.to_N (round_half_even (Qabs x * 100)).

(** The decimal digits of a natural number. *)
Definition digits (n : N) : String.string :=
  DecimalString.NilZero.string_of_uint (N.to_uint n).

(** The two digits of a number below one hundred. *)
Definition two_digits (n : N) : String.string :=
  String.String (Ascii.ascii_of_N (48 + n / 10))
    (String.String (Ascii.ascii_of_N (48 + n mod 10)) String.EmptyString).

(** The [,] option: a comma after every digit that has a positive
    multiple of three digits to its right. *)
Fixpoint commas (s : String.string) : String.string :=
  match s with
  | String.EmptyString => String.EmptyString
  | String.String d s' =>
      String.String d
        (if (0 <? String.length s')%nat
            && (String.length s' mod 3 =? 0)%nat
         then String.String "," (commas s')
         else commas s')
  end.

Local Open Scope string_scope.

Local Notation "s1 ++ s2" := (String.append s1 s2) : string_scope.

(** [def fmt(x): return f"£{x:,.2f}"] *)
Definition fmt (x : Q) : String.string :=
  "£" ++ (if Qlt_bool x 0 then "-" else "")
  ++ commas (digits (cents x / 100)) ++ "." ++ two_digits (cents x mod 100).

(** Reading the text of an amount back: the pound sign, a minus sign or
    none, the integer digits with their commas dropped, the point and
    two digits.  The result is the sign and the amount in cents. *)

Definition is_digit (c : Ascii.ascii) : bool :=
  (48 <=? Ascii.N_of_ascii c)%N && (Ascii.N_of_ascii c <=? 57)%N.

Fixpoint all_digits (s : String.string) : bool :=
  match s with
  | String.EmptyString => true
  | String.String c s' => is_digit c && all_digits s'
  end.

Fixpoint strip_prefix (p s : String.string) : option String.string :=
  match p, s with
  | String.EmptyString, _ => Some s
  | String.String a p', String.String b s' =>
      if Ascii.eqb a b then strip_prefix p' s' else None
  | String.String _ _, String.EmptyString => None
  end.

Fixpoint split_at_point (s : String.string)
    : option (String.string * String.string) :=
  match s with
  | String.EmptyString => None
  | String.String c s' =>
      if Ascii.eqb c "." then Some (String.EmptyString, s')
      else match split_at_point s' with
           | Some (i, f) => Some (String.String c i, f)
           | None => None
           end
  end.

Fixpoint remove_commas (s : String.string) : String.string :=
  match s with
  | String.EmptyString => String.EmptyString
  | String.String c s' =>
      if Ascii.eqb c "," then remove_commas s'
      else String.String c (remove_commas s')
  end.

Definition read_digits (s : String.string) : option N :=
  if all_digits s
  then option_map N.of_uint (DecimalString.NilZero.uint_of_string s)
  else None.

Definition read_amount (s : String.string) : option (bool * N) :=
  match strip_prefix "£" s with
  | None => None
  | Some s1 =>
      let '(negative, body) :=
        match strip_prefix "-" s1 with
        | Some s2 => (true, s2)
        | None => (false, s1)
        end in
      match split_at_point body with
      | None => None
      | Some (i, f) =>
          if (String.length f =? 2)%nat then
            match read_digits (remove_commas i), read_digits f with
            | Some q, Some r => Some (negative, (q * 100 + r)%N)
            | _, _ => None
            end
          else None
      end
  end.

Local Close Scope string_scope.

(** * Part II: lemmas and theorems *)

(** ** [range] *)

Local Open Scope Z_scope.

Lemma py_range_length lo hi : length (py_range lo hi) = Z.to_nat (hi - lo).
Proof. unfold py_range. now rewrite length_map, length_seq. Qed.


Lemma py_range_cons lo hi :
  lo < hi -> py_range lo hi = lo :: py_range (lo + 1) hi.
Proof.
  intros Hlt. unfold py_range.
  replace (Z.to_nat (hi - lo)) with (S (Z.to_nat (hi - (lo + 1)))) by lia.
  cbn [seq map]. f_equal; [lia|].
  rewrite <- seq_shift, map_map.
  apply map_ext. intros i. lia.
Qed.


(** ** The loop builds [periods] *)

Section LoopFacts.

Context {F : Type} `{Number F}.

Local Open Scope py_scope.

Variables (n : Z) (pmt r : F).

Lemma loop_body_row rows opening t :
  loop_body n pmt r (rows, opening) t
  = (rows ++ [period_row n pmt r t opening],
     Closing (period_row n pmt r t opening)).
Proof.
  unfold loop_body, period_row. destruct (t =? n)%Z; reflexivity.
Qed.

Lemma loop_periods ts : forall rows opening,
  fold_left (loop_body n pmt r) ts (rows, opening)
  = (rows ++ periods n pmt r ts opening, balance_after n pmt r ts opening).
Proof.
  induction ts as [|t ts IH]; intros rows opening;
    cbn [fold_left periods balance_after].
  - now rewrite app_nil_r.
  - rewrite loop_body_row, IH, <- app_assoc. reflexivity.
Qed.


Lemma periods_Period ts : forall opening,
  map (@Period F) (periods n pmt r ts opening) = ts.
Proof.
  induction ts as [|t ts IH]; intros opening; simpl.
  - reflexivity.
  - now rewrite IH.
Qed.


Lemma period_row_built t opening :
  row_built n pmt r (period_row n pmt r t opening).
Proof.
  unfold row_built, period_row. cbn.
  destruct (Z.eqb_spec t n); repeat split; intros; congruence.
Qed.

Lemma periods_built ts : forall opening,
  Forall (row_built n pmt r) (periods n pmt r ts opening).
Proof.
  induction ts as [|t ts IH]; intros opening; cbn [periods]; constructor.
  - apply period_row_built.
  - apply IH.
Qed.

Lemma periods_chained ts : forall opening,
  chained opening (periods n pmt r ts opening).
Proof.
  induction ts as [|t ts IH]; intros opening; cbn [periods chained].
  - exact I.
  - split; [reflexivity | apply IH].
Qed.


Lemma schedule_rows_chained adv pv :
  chained pv (schedule_rows n pmt r adv pv).
Proof.
  unfold schedule_rows, advance_row.
  destruct adv; cbn [fst snd app chained].
  - split; [reflexivity | apply periods_chained].
  - apply periods_chained.
Qed.

Lemma schedule_rows_Period adv pv :
  map (@Period F) (schedule_rows n pmt r adv pv)
  = (if adv then [0%Z] else []) ++ py_range 1 (n + 1).
Proof.
  unfold schedule_rows, advance_row. rewrite map_app, periods_Period.
  now destruct adv.
Qed.

(** [compute_lease] with its loop replaced by the rows it builds. *)
Lemma compute_lease_unfold adv idc prepaid incentives ul :
  compute_lease n pmt r adv idc prepaid incentives ul
  = (pv <- (if adv then
              a <- pv_ordinary_annuity pmt r (n - 1) ;; ret (pmt + a)
            else pv_ordinary_annuity pmt r n) ;;
     dep <- py_truediv (pv + idc + prepaid - incentives)
                       (py_of_int (Z.min n ul)) ;;
     ret {| lease_liability_initial := pv;
            rou_initial := pv + idc + prepaid - incentives;
            annual_dep := dep;
            dep_years := Z.min n ul;
            schedule := schedule_rows n pmt r adv pv |}).
Proof.
  unfold compute_lease, schedule_rows.
  destruct (if adv then _ else _) as [e|pv]; [reflexivity|].
  cbn [bind Monad_py Monad_either].
  destruct (advance_row adv pmt ([], pv)) as [rows opening] eqn:E.
  rewrite loop_periods. reflexivity.
Qed.

(** What a returned dictionary holds, whatever the arithmetic. *)
Lemma compute_lease_returns adv idc prepaid incentives ul res :
  compute_lease n pmt r adv idc prepaid incentives ul = inr res ->
  rou_initial res = lease_liability_initial res + idc + prepaid - incentives
  /\ dep_years res = Z.min n ul
  /\ py_truediv (rou_initial res) (py_of_int (dep_years res))
     = inr (annual_dep res)
  /\ schedule res = schedule_rows n pmt r adv (lease_liability_initial res).
Proof.
  rewrite compute_lease_unfold.
  destruct (if adv then _ else _) as [e|pv]; [discriminate|].
  cbn [bind Monad_py Monad_either].
  destruct (py_truediv _ _) as [e|dep] eqn:E; [discriminate|].
  cbn [ret Monad_py Monad_either]. intros [= <-].
  cbn [rou_initial lease_liability_initial dep_years annual_dep schedule].
  repeat split. exact E.
Qed.

End LoopFacts.

(** ** The operators on [Q] *)

Local Open Scope Q_scope.

Lemma Qlt_bool_iff x y : Qlt_bool x y = true <-> x < y.
Proof.
  unfold Qlt_bool. rewrite Qlt_alt.
  destruct (x ?= y); split; congruence.
Qed.

Lemma Qlt_bool_false x y : x <= y -> Qlt_bool y x = false.
Proof.
  intros Hle. destruct (Qlt_bool y x) eqn:E; [|reflexivity].
  apply Qlt_bool_iff in E. lra.
Qed.

Lemma Q_truediv_ok x y : ~ y == 0 -> Q_truediv x y = inr (x / y).
Proof.
  intros Hy. unfold Q_truediv.
  destruct (Qeq_bool y 0) eqn:E; [|reflexivity].
  apply Qeq_bool_eq in E. contradiction.
Qed.

Lemma Q_truediv_zero x y : y == 0 -> Q_truediv x y = inl ZeroDivisionError.
Proof.
  intros Hy. unfold Q_truediv.
  now rewrite (proj2 (Qeq_bool_iff y 0) Hy).
Qed.

Lemma Q_pow_ok x k : ~ x == 0 -> Q_pow x k = inr (x ^ k).
Proof.
  intros Hx. unfold Q_pow.
  destruct (Qeq_bool x 0) eqn:E; [|reflexivity].
  apply Qeq_bool_eq in E. contradiction.
Qed.

Lemma inject_Z_nonzero z : (z <> 0)%Z -> ~ inject_Z z == 0.
Proof.
  intros Hz E. apply Hz. unfold Qeq, inject_Z in E. cbn in E. lia.
Qed.

(** ** The two functions on [Q] *)

(** [pv_ordinary_annuity] returns the specification's present value
    whenever the rate is not negative. *)
Lemma pv_ordinary_annuity_Q pmt r n :
  0 <= r -> pv_ordinary_annuity pmt r n = inr (computePresentValue pmt r n).
Proof.
  intros Hr. unfold pv_ordinary_annuity, computePresentValue.
  change (py_eq r (py_of_int 0)) with (Qeq_bool r 0).
  destruct (Qeq_bool r 0) eqn:E; [reflexivity|].
  apply Qeq_bool_neq in E.
  change (py_pow (py_add (py_of_int 1) r) (- n)) with (Q_pow (1 + r) (- n)).
  rewrite Q_pow_ok by lra.
  cbn [bind Monad_py Monad_either].
  change (py_truediv ?a ?b) with (Q_truediv a b).
  now rewrite Q_truediv_ok.
Qed.

(** [compute_lease] returns whenever the rate is not negative and the
    term and the useful life are positive, and this is the dictionary it
    returns. *)
Lemma compute_lease_Q n pmt r adv idc prepaid incentives ul :
  0 <= r -> (1 <= n)%Z -> (1 <= ul)%Z ->
  compute_lease n pmt r adv idc prepaid incentives ul
  = inr {| lease_liability_initial := initialLiability adv pmt r n;
           rou_initial := initialLiability adv pmt r n + idc + prepaid
                          - incentives;
           annual_dep := (initialLiability adv pmt r n + idc + prepaid
                          - incentives) / inject_Z (Z.min n ul);
           dep_years := Z.min n ul;
           schedule :=
             schedule_rows n pmt r adv (initialLiability adv pmt r n) |}.
Proof.
  intros Hr Hn Hul. rewrite compute_lease_unfold.
  assert (Hpv : (if adv then
                   a <- pv_ordinary_annuity pmt r (n - 1) ;; ret (py_add pmt a)
                 else pv_ordinary_annuity pmt r n)
                = inr (initialLiability adv pmt r n)).
  { unfold initialLiability. destruct adv.
    - now rewrite pv_ordinary_annuity_Q.
    - now apply pv_ordinary_annuity_Q. }
  rewrite Hpv. cbn [bind Monad_py Monad_either].
  change (py_truediv ?a ?b) with (Q_truediv a b).
  unfold py_of_int, Number_Q.
  rewrite Q_truediv_ok by (apply inject_Z_nonzero; lia).
  reflexivity.
Qed.

(** Outside the documented domain the arithmetic does raise: a zero
    useful life divides by zero, and so does a rate of minus one. *)
Example useful_life_zero_raises :
  compute_lease 4 25000 (5 # 100) false 0 0 0 0 = inl ZeroDivisionError.
Proof. reflexivity. Qed.

Example rate_minus_one_raises :
  pv_ordinary_annuity 25000 (- (1)) 4 = inl ZeroDivisionError.
Proof. reflexivity. Qed.

(** ** Discounting *)

Section Discount.

Variable r : Q.
Hypothesis r_nonneg : 0 <= r.

Lemma discount_pos k : 0 < discount r k.
Proof. apply Qpower_0_lt. lra. Qed.

Lemma discount_succ k : discount r k == discount r (k + 1) * (1 + r).
Proof.
  unfold discount.
  replace (- k)%Z with (- (k + 1) + 1)%Z by lia.
  rewrite Qpower_plus by lra.
  replace (- (k + 1 - 1 + 1))%Z with (- (k + 1))%Z by lia.
  reflexivity.
Qed.

Lemma discount_le_1 k : (0 <= k)%Z -> discount r k <= 1.
Proof.
  intros Hk. unfold discount. rewrite Qpower_opp.
  assert (H1 : 1 <= (1 + r) ^ k) by (apply Qpower_1_le; [lra | lia]).
  apply Qle_shift_inv_r; lra.
Qed.

Lemma discount_lt_1 k : 0 < r -> (1 <= k)%Z -> discount r k < 1.
Proof.
  intros Hr Hk.
  pose proof (discount_le_1 (k - 1)%Z ltac:(lia)) as Hle.
  pose proof (discount_succ (k - 1)%Z) as Hs.
  replace (k - 1 + 1)%Z with k in Hs by lia.
  pose proof (discount_pos k) as Hp.
  nra.
Qed.

End Discount.

(** ** The balance in closed form *)

Section Balance.

Variables pmt r : Q.
Hypothesis r_pos : 0 < r.

Lemma computePresentValue_balance k :
  computePresentValue pmt r k = balance pmt r k.
Proof.
  unfold computePresentValue, balance, discount.
  destruct (Qeq_bool r 0) eqn:E; [|reflexivity].
  apply Qeq_bool_eq in E. lra.
Qed.


Lemma balance_nonneg k : 0 <= pmt -> (0 <= k)%Z -> 0 <= balance pmt r k.
Proof.
  intros Hp Hk. unfold balance.
  pose proof (discount_le_1 r ltac:(lra) k Hk) as Hd.
  apply Qle_shift_div_l; [assumption|]. nra.
Qed.




End Balance.

Lemma computePresentValue_nonneg pmt r k :
  0 <= pmt -> 0 <= r -> (0 <= k)%Z -> 0 <= computePresentValue pmt r k.
Proof.
  intros Hp Hr Hk.
  destruct (Qeq_bool r 0) eqn:E.
  - unfold computePresentValue. rewrite E.
    apply Qmult_le_0_compat; [assumption|].
    change 0 with (inject_Z 0). rewrite <- Zle_Qle. exact Hk.
  - apply Qeq_bool_neq in E.
    rewrite computePresentValue_balance by lra.
    apply balance_nonneg; [lra | assumption..].
Qed.

(** With a positive rate, the first period's interest is below the
    payment exactly when the payment is positive. *)
Lemma first_interest_below_payment n pmt r :
  0 < r -> (1 <= n)%Z ->
  initialLiability false pmt r n * r < pmt <-> 0 < pmt.
Proof.
  intros Hr Hn. unfold initialLiability.
  rewrite computePresentValue_balance by assumption.
  assert (E : balance pmt r n * r == pmt * (1 - discount r n))
    by (unfold balance; field; lra).
  rewrite E.
  pose proof (discount_pos r ltac:(lra) n) as Hd0.
  pose proof (discount_lt_1 r ltac:(lra) n Hr Hn) as Hd1.
  split; intros H; nra.
Qed.

(** A payment below the initial liability is positive. *)
Lemma payment_below_liability n pmt r :
  0 < r -> 0 <= pmt ->
  pmt < initialLiability false pmt r n -> 0 < pmt.
Proof.
  intros Hr Hp Hlt. unfold initialLiability in Hlt.
  rewrite computePresentValue_balance in Hlt by assumption.
  destruct (Qlt_le_dec 0 pmt) as [H|H]; [assumption|].
  assert (E : pmt == 0) by lra.
  unfold balance in Hlt. rewrite E in Hlt.
  assert (E0 : 0 * (1 - discount r n) / r == 0) by (field; lra).
  lra.
Qed.

(** ** Rows in exact arithmetic *)




(** ** The properties of the specification *)

(** C3.  For a non-negative payment, a non-negative rate and a
    non-negative number of periods, [pv_ordinary_annuity] returns
    [payment * periods] when the rate is zero and
    [payment * (1 - (1 + rate) ** -periods) / rate] when it is positive. *)
Theorem pv_ordinary_annuity_formula (pmt r : Q) (n : Z) :
  0 <= pmt -> 0 <= r -> (0 <= n)%Z ->
  (r == 0 -> pv_ordinary_annuity pmt r n = inr (pmt * inject_Z n))
  /\ (0 < r ->
      pv_ordinary_annuity pmt r n = inr (pmt * (1 - (1 + r) ^ (- n)) / r)).
Proof.
  intros _ Hr _. rewrite pv_ordinary_annuity_Q by assumption.
  unfold computePresentValue. split; intros H.
  - apply Qeq_bool_iff in H. now rewrite H.
  - destruct (Qeq_bool r 0) eqn:E; [|reflexivity].
    apply Qeq_bool_eq in E. lra.
Qed.

Lemma pv_ordinary_annuity_formula_witness :
  pv_ordinary_annuity 25000 0 4 = inr (25000 * inject_Z 4)
  /\ pv_ordinary_annuity 25000 (5 # 100) 4
     = inr (25000 * (1 - (1 + (5 # 100)) ^ (- 4)) / (5 # 100)).
Proof.
  split.
  - apply (pv_ordinary_annuity_formula 25000 0 4);
      [discriminate | discriminate | discriminate | reflexivity].
  - apply (pv_ordinary_annuity_formula 25000 (5 # 100) 4);
      [discriminate | discriminate | discriminate | reflexivity].
Defined.

(** C2.  On the documented domain the initial liability is
    [pv_ordinary_annuity(pmt, r, n)] for payments in arrears and
    [pmt + pv_ordinary_annuity(pmt, r, n - 1)] for payments in advance. *)
Theorem initial_liability_by_timing
    (n : Z) (pmt r : Q) (adv : bool) (idc prepaid incentives : Q) (ul : Z) :
  documented_domain n pmt r idc prepaid incentives ul ->
  exists res a,
    compute_lease n pmt r adv idc prepaid incentives ul = inr res
    /\ pv_ordinary_annuity pmt r (if adv then n - 1 else n)%Z = inr a
    /\ lease_liability_initial res = if adv then pmt + a else a.
Proof.
  intros (Hn & _ & Hr & _ & _ & _ & Hul).
  rewrite compute_lease_Q, pv_ordinary_annuity_Q by assumption.
  eexists. eexists. split; [reflexivity|]. split; [reflexivity|].
  cbn [lease_liability_initial]. unfold initialLiability.
  now destruct adv.
Qed.

Lemma initial_liability_by_timing_witness :
  exists res a,
    compute_lease 4 25000 (5 # 100) true 0 0 0 4 = inr res
    /\ pv_ordinary_annuity 25000 (5 # 100) 3 = inr a
    /\ lease_liability_initial res = 25000 + a.
Proof.
  apply (initial_liability_by_timing 4 25000 (5 # 100) true 0 0 0 4).
  in_domain.
Defined.





(** C5.  On the documented domain the right-of-use asset is
    [liability + idc + prepaid - incentives] as computed, the
    depreciation periods are [min(term, useful_life)], the annual
    depreciation is the asset divided by those periods, and multiplying
    it back by the periods gives the asset. *)
Theorem rou_asset_and_depreciation
    (n : Z) (pmt r : Q) (adv : bool) (idc prepaid incentives : Q) (ul : Z) :
  documented_domain n pmt r idc prepaid incentives ul ->
  exists res,
    compute_lease n pmt r adv idc prepaid incentives ul = inr res
    /\ rou_initial res
       = lease_liability_initial res + idc + prepaid - incentives
    /\ dep_years res = Z.min n ul
    /\ annual_dep res = rou_initial res / inject_Z (dep_years res)
    /\ annual_dep res * inject_Z (dep_years res) == rou_initial res.
Proof.
  intros (Hn & _ & Hr & _ & _ & _ & Hul).
  rewrite compute_lease_Q by assumption.
  eexists. split; [reflexivity|].
  cbn [rou_initial lease_liability_initial dep_years annual_dep].
  repeat split. field. apply inject_Z_nonzero. lia.
Qed.

Lemma rou_asset_and_depreciation_witness :
  exists res,
    compute_lease 4 25000 (5 # 100) false 1000 500 250 3 = inr res
    /\ rou_initial res = lease_liability_initial res + 1000 + 500 - 250
    /\ dep_years res = Z.min 4 3
    /\ annual_dep res = rou_initial res / inject_Z (dep_years res)
    /\ annual_dep res * inject_Z (dep_years res) == rou_initial res.
Proof.
  apply (rou_asset_and_depreciation 4 25000 (5 # 100) false 1000 500 250 3).
  in_domain.
Defined.

(** C7.  On the documented domain the schedule has [term] rows for
    payments in arrears and [term + 1] for payments in advance, and its
    period numbers are, in order, [1, ..., term] and [0, ..., term]. *)
Theorem schedule_periods
    (n : Z) (pmt r : Q) (adv : bool) (idc prepaid incentives : Q) (ul : Z) :
  documented_domain n pmt r idc prepaid incentives ul ->
  exists res,
    compute_lease n pmt r adv idc prepaid incentives ul = inr res
    /\ length (schedule res) = Z.to_nat (if adv then n + 1 else n)
    /\ map (@Period Q) (schedule res)
       = py_range (if adv then 0 else 1) (n + 1).
Proof.
  intros (Hn & _ & Hr & _ & _ & _ & Hul).
  rewrite compute_lease_Q by assumption.
  eexists. split; [reflexivity|]. cbn [schedule].
  assert (Hp : map (@Period Q)
                 (schedule_rows n pmt r adv (initialLiability adv pmt r n))
               = py_range (if adv then 0 else 1) (n + 1)).
  { rewrite schedule_rows_Period. destruct adv; [|reflexivity].
    now rewrite (py_range_cons 0) by lia. }
  split; [|exact Hp].
  rewrite <- (length_map (@Period Q)), Hp, py_range_length.
  destruct adv; f_equal; lia.
Qed.

Lemma schedule_periods_witness :
  exists res,
    compute_lease 4 25000 (5 # 100) true 0 0 0 4 = inr res
    /\ length (schedule res) = 5%nat
    /\ map (@Period Q) (schedule res) = [0; 1; 2; 3; 4]%Z.
Proof.
  apply (schedule_periods 4 25000 (5 # 100) true 0 0 0 4).
  in_domain.
Defined.

(** C9.  On the documented domain neither function raises:
    [pv_ordinary_annuity] returns for every non-negative number of
    periods and [compute_lease] returns, its division being by
    [min(term, useful_life)], which is at least one. *)
Theorem no_error_on_documented_domain
    (n : Z) (pmt r : Q) (adv : bool) (idc prepaid incentives : Q) (ul : Z)
    (periods : Z) :
  documented_domain n pmt r idc prepaid incentives ul ->
  (0 <= periods)%Z ->
  (exists v, pv_ordinary_annuity pmt r periods = inr v)
  /\ (exists res,
        compute_lease n pmt r adv idc prepaid incentives ul = inr res
        /\ (1 <= dep_years res)%Z).
Proof.
  intros (Hn & _ & Hr & _ & _ & _ & Hul) _. split.
  - rewrite pv_ordinary_annuity_Q by assumption. now eexists.
  - rewrite compute_lease_Q by assumption.
    eexists. split; [reflexivity|]. cbn [dep_years]. lia.
Qed.

Lemma no_error_on_documented_domain_witness :
  (exists v, pv_ordinary_annuity 25000 0 0 = inr v)
  /\ (exists res,
        compute_lease 1 25000 0 true 0 0 0 1 = inr res
        /\ (1 <= dep_years res)%Z).
Proof.
  apply (no_error_on_documented_domain 1 25000 0 true 0 0 0 1 0).
  - in_domain.
  - discriminate.
Defined.

(** C10.  On the documented domain with payments in advance, the
    period-0 row opens at [pmt + pv_ordinary_annuity(pmt, r, n - 1)],
    which is at least [pmt]; so [min(pmt, opening)] is [pmt]: the row's
    principal reduction is the payment, its interest is zero, and its
    payment is its interest plus its principal. *)
Theorem advance_row_pays_principal
    (n : Z) (pmt r : Q) (idc prepaid incentives : Q) (ul : Z) :
  documented_domain n pmt r idc prepaid incentives ul ->
  exists res row0 a,
    compute_lease n pmt r true idc prepaid incentives ul = inr res
    /\ nth_error (schedule res) 0 = Some row0
    /\ Period row0 = 0%Z
    /\ pv_ordinary_annuity pmt r (n - 1) = inr a
    /\ Opening row0 = pmt + a
    /\ pmt <= Opening row0
    /\ Principal row0 = pmt
    /\ Interest row0 = 0
    /\ Payment row0 == Interest row0 + Principal row0.
Proof.
  intros (Hn & Hp & Hr & _ & _ & _ & Hul).
  rewrite compute_lease_Q, pv_ordinary_annuity_Q by assumption.
  pose proof (computePresentValue_nonneg pmt r (n - 1) Hp Hr ltac:(lia))
    as Hpv.
  unfold schedule_rows, advance_row, initialLiability.
  cbn [schedule fst snd app nth_error].
  eexists. eexists. eexists. split; [reflexivity|].
  split; [reflexivity|].
  cbn [Period Opening Principal Interest Payment].
  unfold py_min. change (py_lt ?a ?b) with (Qlt_bool a b).
  rewrite Qlt_bool_false by lra.
  repeat split; try reflexivity.
  - lra.
  - change (py_of_int 0) with 0. ring.
Qed.

Lemma advance_row_pays_principal_witness :
  exists res row0 a,
    compute_lease 1 25000 (5 # 100) true 0 0 0 4 = inr res
    /\ nth_error (schedule res) 0 = Some row0
    /\ Period row0 = 0%Z
    /\ pv_ordinary_annuity 25000 (5 # 100) (1 - 1) = inr a
    /\ Opening row0 = 25000 + a
    /\ 25000 <= Opening row0
    /\ Principal row0 = 25000
    /\ Interest row0 = 0
    /\ Payment row0 == Interest row0 + Principal row0.
Proof.
  apply (advance_row_pays_principal 1 25000 (5 # 100) 0 0 0 4).
  in_domain.
Defined.



(** ** The default scenario *)

(** C6, as the code computes it.  In the default scenario the initial
    liability and the right-of-use asset are 88,648.76, the annual
    depreciation is 22,162.19, the schedule has four rows, the first
    with interest 4,432.44, principal reduction 20,567.56 and closing
    balance 68,081.20, and the fourth closes at zero. *)
Theorem default_scenario_figures :
  exists res row1 row2 row3 row4,
    default_scenario = inr res
    /\ schedule res = [row1; row2; row3; row4]
    /\ to_the_cent (lease_liability_initial res) 88648.76
    /\ to_the_cent (rou_initial res) 88648.76
    /\ to_the_cent (annual_dep res) 22162.19
    /\ to_the_cent (Interest row1) 4432.44
    /\ to_the_cent (Principal row1) 20567.56
    /\ to_the_cent (Closing row1) 68081.20
    /\ Closing row4 == 0.
Proof.
  unfold default_scenario.
  rewrite compute_lease_Q by (try lra; lia).
  do 5 eexists. split; [reflexivity|].
  split; [vm_compute; reflexivity|].
  unfold to_the_cent. repeat split; cents.
Qed.

(** The figures the specification gives for the default scenario are not
    the ones the calculation returns: the liability is more than 16 away
    from 88,664.90, the annual depreciation more than 4 from 22,166.22,
    and the first row's interest, principal reduction and closing balance
    are each more than 0.80 from 4,433.25, 20,566.75 and 68,098.15. *)
Lemma default_scenario_not_as_specified :
  exists res row1 row2 row3 row4,
    default_scenario = inr res
    /\ schedule res = [row1; row2; row3; row4]
    /\ 16 <= Qabs (lease_liability_initial res - 88664.90)
    /\ 16 <= Qabs (rou_initial res - 88664.90)
    /\ 4 <= Qabs (annual_dep res - 22166.22)
    /\ 0.80 <= Qabs (Interest row1 - 4433.25)
    /\ 0.80 <= Qabs (Principal row1 - 20566.75)
    /\ 16 <= Qabs (Closing row1 - 68098.15).
Proof.
  unfold default_scenario.
  rewrite compute_lease_Q by (try lra; lia).
  do 5 eexists. split; [reflexivity|].
  split; [vm_compute; reflexivity|].
  repeat split; cents.
Qed.

(** * Part III: further properties of the code *)

(** ** The present value at any non-negative rate *)

















(** ** The schedule outside and inside the documented domain *)







(** ** What the columns add up to *)
























(** ** How interest and principal move through an arrears schedule *)





(** ** What holds in any arithmetic *)

(** X12.  Whatever the arithmetic (so also in binary64), a dictionary
    [compute_lease] returns has its period numbers in order, every row
    opens at the balance the row before it closed at, the first at the
    initial liability, every row of the loop holds the values its
    iteration assigned, and the asset and the depreciation periods are
    as computed. *)
Theorem schedule_structure_in_any_arithmetic
    {F : Type} `{Number F}
    (n : Z) (pmt r : F) (adv : bool) (idc prepaid incentives : F) (ul : Z)
    (res : LeaseResult F) :
  compute_lease n pmt r adv idc prepaid incentives ul = inr res ->
  map (@Period F) (schedule res)
  = (if adv then [0%Z] else []) ++ py_range 1 (n + 1)
  /\ chained (lease_liability_initial res) (schedule res)
  /\ (forall row,
        In row (schedule res) -> Period row <> 0%Z ->
        row_built n pmt r row)
  /\ rou_initial res
     = py_sub (py_add (py_add (lease_liability_initial res) idc) prepaid)
              incentives
  /\ dep_years res = Z.min n ul.
Proof.
  intros Hres.
  destruct (compute_lease_returns n pmt r adv idc prepaid incentives ul res
              Hres) as (Hrou & Hdep & _ & Hsched).
  rewrite Hsched. split; [apply schedule_rows_Period|].
  split; [apply schedule_rows_chained|].
  split; [|split; assumption].
  intros row Hin Hperiod.
  unfold schedule_rows, advance_row in Hin. apply in_app_or in Hin.
  destruct Hin as [Hin|Hin].
  - destruct adv; cbn [fst] in Hin; [|contradiction].
    destruct Hin as [<-|[]]. now elim Hperiod.
  - eapply Forall_forall in Hin; [exact Hin | apply periods_built].
Qed.

Lemma schedule_structure_in_any_arithmetic_witness :
  exists res : LeaseResult Q,
    compute_lease 4 25000 (5 # 100) true 0 0 0 4 = inr res
    /\ map (@Period Q) (schedule res) = [0%Z] ++ py_range 1 (4 + 1)
    /\ chained (lease_liability_initial res) (schedule res)
    /\ (forall row,
          In row (schedule res) -> Period row <> 0%Z ->
          row_built 4 25000 (5 # 100) row)
    /\ rou_initial res = lease_liability_initial res + 0 + 0 - 0
    /\ dep_years res = Z.min 4 4.
Proof.
  assert (E := compute_lease_Q 4 25000 (5 # 100) true 0 0 0 4
                 ltac:(discriminate) ltac:(discriminate)
                 ltac:(discriminate)).
  eexists. split; [exact E|].
  exact (schedule_structure_in_any_arithmetic
           4 25000 (5 # 100) true 0 0 0 4 _ E).
Defined.

(** ** How the present value moves with the rate and the term *)








(** ** The [if run:] block *)

(** On a schedule of one period or more, [y1] is the row of period 1. *)
Lemma year1_row_schedule {F : Type} `{Number F} n (pmt r : F) adv pv :
  (1 <= n)%Z ->
  year1_row adv (schedule_rows n pmt r adv pv)
  = inr (period_row n pmt r 1 (snd (advance_row adv pmt ([], pv)))).
Proof.
  intros Hn. unfold schedule_rows.
  rewrite (py_range_cons 1) by lia. cbn [periods].
  unfold year1_row, advance_row. destruct adv; reflexivity.
Qed.

(** What the block computes from sidebar values within their bounds. *)
Lemma run_model_in_bounds sb :
  sidebar_in_bounds sb ->
  let n := lease_term sb in
  let pmt := annual_payment sb in
  let r := rate_pct sb / 100 in
  let adv := String.prefix "Advance" (pay_in_advance sb) in
  let idc := initial_direct_costs sb in
  let liability := initialLiability adv pmt r n in
  let rou := liability + idc + prepaid_lease sb - lease_incentives sb in
  let dep := rou / inject_Z (Z.min n (useful_life sb)) in
  documented_domain n pmt r idc (prepaid_lease sb) (lease_incentives sb)
    (useful_life sb)
  /\ run_model sb
     = inr {| result :=
                {| lease_liability_initial := liability;
                   rou_initial := rou;
                   annual_dep := dep;
                   dep_years := Z.min n (useful_life sb);
                   schedule := schedule_rows n pmt r adv liability |};
              y1 := period_row n pmt r 1
                      (snd (advance_row adv pmt ([], liability)));
              rou_nbv := rou - dep |}.
Proof.
  intros (Hn & Hp & Hr & _ & Hul & Hidc & Hpre & Hinc).
  cbn zeta.
  assert (Hrate : 0 <= rate_pct sb / 100)
    by (apply Qle_shift_div_l; [reflexivity | lra]).
  split; [unfold documented_domain; repeat split; lia || lra|].
  unfold run_model.
  change (py_truediv (rate_pct sb) (py_of_int 100))
    with (Q_truediv (rate_pct sb) 100).
  rewrite Q_truediv_ok by discriminate.
  cbn [from_py bind ret Monad_ui Monad_either].
  rewrite compute_lease_Q by (assumption || lia).
  cbn [from_py bind ret Monad_ui Monad_either schedule].
  rewrite year1_row_schedule by lia.
  reflexivity.
Qed.

(** The select box's options, as the block reads them. *)
Lemma timing_option_advance s :
  In s timing_options ->
  (s = "Arrears (end of period)"%string
   /\ String.prefix "Advance" s = false)
  \/ (s = "Advance (start of period)"%string
      /\ String.prefix "Advance" s = true).
Proof.
  intros [<- | [<- | []]]; [left | right]; split; reflexivity.
Qed.

(** X15.  For every value the sidebar widgets can hold, the block's
    calculation raises nothing: [compute_lease] is called inside its
    documented domain, with the rate as a fraction and with the advance
    flag set exactly for the option "Advance (start of period)", it
    returns, and the selection of [y1] finds a row. *)
Theorem run_model_never_raises (sb : Sidebar) :
  sidebar_in_bounds sb ->
  exists report,
    run_model sb = inr report
    /\ compute_lease (lease_term sb) (annual_payment sb) (rate_pct sb / 100)
         (String.eqb (pay_in_advance sb) "Advance (start of period)"%string)
         (initial_direct_costs sb) (prepaid_lease sb) (lease_incentives sb)
         (useful_life sb)
       = inr (result report)
    /\ documented_domain (lease_term sb) (annual_payment sb)
         (rate_pct sb / 100) (initial_direct_costs sb) (prepaid_lease sb)
         (lease_incentives sb) (useful_life sb).
Proof.
  intros Hsb. destruct (run_model_in_bounds sb Hsb) as [Hdom Hrun].
  eexists. split; [exact Hrun|]. split; [|exact Hdom].
  cbn [result].
  destruct Hsb as (_ & _ & _ & Hopt & _).
  destruct (timing_option_advance _ Hopt) as [[-> ->] | [-> ->]];
    destruct Hdom as (Hn & _ & Hr & _ & _ & _ & Hul);
    now rewrite compute_lease_Q by assumption.
Qed.

Lemma run_model_never_raises_witness :
  exists report,
    run_model {| lease_term := 4; annual_payment := 25000; rate_pct := 5;
                 pay_in_advance := "Arrears (end of period)"%string;
                 useful_life := 4; initial_direct_costs := 0;
                 prepaid_lease := 0; lease_incentives := 0 |}
    = inr report
    /\ compute_lease 4 25000 (5 / 100) false 0 0 0 4 = inr (result report)
    /\ documented_domain 4 25000 (5 / 100) 0 0 0 4.
Proof.
  apply (run_model_never_raises
           {| lease_term := 4; annual_payment := 25000; rate_pct := 5;
              pay_in_advance := "Arrears (end of period)"%string;
              useful_life := 4; initial_direct_costs := 0;
              prepaid_lease := 0; lease_incentives := 0 |}).
  unfold sidebar_in_bounds. cbn.
  repeat split; try discriminate. now left.
Defined.







(** ** [fmt] *)

Lemma digit_neq c d :
  is_digit c = true -> is_digit d = false -> Ascii.eqb c d = false.
Proof.
  intros Hc Hd. destruct (Ascii.eqb_spec c d) as [->|]; congruence.
Qed.

Lemma all_digits_string_of_uint d :
  all_digits (DecimalString.NilEmpty.string_of_uint d) = true.
Proof. induction d; cbn; auto. Qed.

Lemma to_uint_nonnil n : N.to_uint n <> Decimal.Nil.
Proof.
  destruct n as [|p]; [discriminate|].
  apply DecimalPos.Unsigned.to_uint_nonnil.
Qed.

Lemma all_digits_digits n : all_digits (digits n) = true.
Proof.
  unfold digits, DecimalString.NilZero.string_of_uint.
  destruct (N.to_uint n); try apply all_digits_string_of_uint.
  reflexivity.
Qed.

Lemma digits_nonempty n :
  exists c s, digits n = String.String c s /\ is_digit c = true.
Proof.
  pose proof (all_digits_digits n) as Hd.
  pose proof (to_uint_nonnil n) as Hn.
  unfold digits, DecimalString.NilZero.string_of_uint in *.
  destruct (N.to_uint n); try contradiction; cbn in *;
    eexists; eexists; (split; [reflexivity|]); reflexivity.
Qed.

Lemma read_digits_digits n : read_digits (digits n) = Some n.
Proof.
  unfold read_digits. rewrite all_digits_digits. unfold digits.
  rewrite DecimalString.NilZero.usu by apply to_uint_nonnil.
  cbn [option_map]. now rewrite DecimalN.Unsigned.of_to.
Qed.

Lemma two_digits_spec r :
  (r < 100)%N ->
  read_digits (two_digits r) = Some r
  /\ String.length (two_digits r) = 2%nat
  /\ all_digits (two_digits r) = true.
Proof.
  intros Hr. rewrite <- (Nnat.N2Nat.id r).
  assert (Hk : (N.to_nat r < 100)%nat) by lia.
  generalize dependent (N.to_nat r). clear. intros k Hk.
  do 100 (destruct k as [|k]; [repeat split|]).
  lia.
Qed.

(** The text of the integer part: dropping the commas gives the digits
    back, and the point that follows is the first one. *)
Lemma commas_read D f :
  all_digits D = true ->
  remove_commas (commas D) = D
  /\ split_at_point (String.append (commas D) (String.String "." f))
     = Some (commas D, f).
Proof.
  induction D as [|d s IH]; intros Hd.
  - split; reflexivity.
  - cbn [all_digits] in Hd. apply andb_true_iff in Hd.
    destruct Hd as [Hd Hs]. destruct (IH Hs) as [IH1 IH2].
    assert (Hcomma : Ascii.eqb d "," = false)
      by (apply digit_neq; [assumption | reflexivity]).
    assert (Hpoint : Ascii.eqb d "." = false)
      by (apply digit_neq; [assumption | reflexivity]).
    cbn [commas].
    destruct ((0 <? String.length s)%nat
              && (String.length s mod 3 =? 0)%nat);
      cbn [remove_commas split_at_point String.append];
      rewrite Hcomma, Hpoint.
    + change (Ascii.eqb "," ",") with true.
      change (Ascii.eqb "," ".") with false.
      cbn iota. now rewrite IH1, IH2.
    + now rewrite IH1, IH2.
Qed.

(** Rounding to the nearest integer. *)
Lemma round_half_even_spec y :
  0 <= y ->
  (0 <= round_half_even y)%Z
  /\ Qabs (y - inject_Z (round_half_even y)) <= 1 # 2.
Proof.
  intros Hy. unfold round_half_even.
  pose proof (Qfloor_le y) as Hlo. pose proof (Qlt_floor y) as Hhi.
  pose proof (Qfloor_resp_le 0 y Hy) as H0.
  change (Qfloor 0) with 0%Z in H0.
  rewrite inject_Z_plus in Hhi. change (inject_Z 1) with 1 in Hhi.
  set (f := Qfloor y) in *.
  assert (Hcases :
    forall z, (z = f \/ z = (f + 1)%Z) ->
              - (1 # 2) <= y - inject_Z z <= 1 # 2 ->
              (0 <= z)%Z /\ Qabs (y - inject_Z z) <= 1 # 2).
  { intros z Hz Hb. split; [lia|]. now apply Qabs_Qle_condition. }
  destruct (y - inject_Z f ?= 1 # 2) eqn:E.
  - apply Qeq_alt in E.
    destruct (Z.even f); apply Hcases; auto;
      rewrite ?inject_Z_plus; change (inject_Z 1) with 1; lra.
  - apply Qlt_alt in E. apply Hcases; [auto | lra].
  - apply Qgt_alt in E. apply Hcases; [auto|].
    rewrite inject_Z_plus. change (inject_Z 1) with 1. lra.
Qed.

Lemma cents_spec x :
  Qabs (Qabs x * 100 - inject_Z (Z.of_N (cents x))) <= 1 # 2.
Proof.
  assert (Hy : 0 <= Qabs x * 100).
  { pose proof (Qabs_nonneg x). nra. }
  destruct (round_half_even_spec _ Hy) as [H0 Habs].
  unfold cents. now rewrite Z2N.id.
Qed.

(** X19.  The text [fmt] returns for [x] reads back as an amount, and
    the amount is [x] to the nearest cent: its sign is that of [x] and
    its number of cents is within half a cent of [|x| * 100]. *)
Theorem fmt_reads_back_nearest_cent (x : Q) :
  read_amount (fmt x) = Some (Qlt_bool x 0, cents x)
  /\ Qabs (Qabs x * 100 - inject_Z (Z.of_N (cents x))) <= 1 # 2.
Proof.
  split; [|apply cents_spec].
  unfold fmt, read_amount.
  set (q := (cents x / 100)%N). set (r := (cents x mod 100)%N).
  assert (Hr : (r < 100)%N) by (subst r; now apply N.mod_lt).
  destruct (two_digits_spec r Hr) as (Hread & Hlen & _).
  destruct (commas_read (digits q) (two_digits r) (all_digits_digits q))
    as [Hrm Hsplit].
  assert (Hbody :
    match split_at_point
            (String.append (commas (digits q))
               (String.append "." (two_digits r))) with
    | None => None
    | Some (i, f) =>
        if (String.length f =? 2)%nat then
          match read_digits (remove_commas i), read_digits f with
          | Some q', Some r' => Some (Qlt_bool x 0, (q' * 100 + r')%N)
          | _, _ => None
          end
        else None
    end = Some (Qlt_bool x 0, cents x)).
  { change (String.append "." (two_digits r))
      with (String.String "." (two_digits r)).
    rewrite Hsplit, Hlen, Hrm, read_digits_digits, Hread.
    cbn [Nat.eqb]. do 2 f_equal. subst q r.
    rewrite N.mul_comm. symmetry. apply N.div_mod'. }
  destruct (Qlt_bool x 0).
  - exact Hbody.
  - destruct (digits_nonempty q) as (c & s & Hq & Hc).
    revert Hbody. rewrite Hq. cbn [commas String.append strip_prefix].
    change (Ascii.eqb "194" "194") with true.
    change (Ascii.eqb "163" "163") with true. cbn iota.
    assert (Hminus : Ascii.eqb "-" c = false).
    { destruct (Ascii.eqb_spec "-" c) as [<-|]; [discriminate | reflexivity]. }
    rewrite Hminus. trivial.
Qed.





